(** * Heuristics for the game of Isolation: a shallow embedding

    The development follows the two Python modules of the repository:
    [heuristics.py] (class [Heuristic]: [score], [action_mobility],
    [the_super_duper_hugo_heuristic], [action_focus]) and
    [isolation_utilities.py] ([argmax]).

    Python numbers are kept as the interpreter has them: [int] is an
    unbounded integer ([Z]), [float] is an IEEE 754 binary64 value (the
    kernel's primitive floats), and an exception is a value of [exn]
    carried by the [result] monad. *)

From Stdlib Require Import ZArith List String Bool Lia Permutation.
From Stdlib Require Import PrimFloat SpecFloat FloatOps FloatAxioms.
Import ListNotations.

Local Open Scope Z_scope.

(** ** The fragment of the Python runtime the two modules use *)

Module Py.

(** The built-in exceptions that the code of the repository can raise.
    [KeyError] carries its single argument, the key that was looked up. *)
Inductive exn : Type :=
| KeyError (key : string)
| ZeroDivisionError
| OverflowError
| IndexError
| TypeError.

Inductive result (A : Type) : Type :=
| Ok (a : A)
| Raise (e : exn).
Arguments Ok {A} a.
Arguments Raise {A} e.

Definition bind {A B : Type} (r : result A) (k : A -> result B) : result B :=
  match r with
  | Ok a => k a
  | Raise e => Raise e
  end.

(** The argument tuple [e.args] of an exception, as strings. *)
Definition args (e : exn) : list string :=
  match e with
  | KeyError key => [key]
  | _ => []
  end.

(** [type(e).__name__]: the class of the exception. The two modules define
    no exception class of their own. *)
Definition class_name (e : exn) : string :=
  match e with
  | KeyError _ => "KeyError"
  | ZeroDivisionError => "ZeroDivisionError"
  | OverflowError => "OverflowError"
  | IndexError => "IndexError"
  | TypeError => "TypeError"
  end.

(** *** Numbers *)

Inductive num : Type :=
| Int (z : Z)
| Flt (f : float).

Definition sf_of_int (z : Z) : spec_float :=
  match z with
  | Z0 => S754_zero false
  | Zpos p => S754_finite false p 0
  | Zneg p => S754_finite true p 0
  end.

(** [float(z)] for an [int]: the nearest binary64 value, ties to even;
    [OverflowError] when that value is not finite. *)
Definition float_of_int (z : Z) : result float :=
  match binary_normalize prec emax z 0 false with
  | S754_infinity _ => Raise OverflowError
  | r => Ok (SF2Prim r)
  end.

(** The binary64 value nearest to [a / b], ties to even. *)
Definition quotient (a b : Z) : float :=
  SF2Prim (SFdiv prec emax (sf_of_int a) (sf_of_int b)).

(** [a / b] for two [int]s (true division): [ZeroDivisionError] on a zero
    divisor, otherwise the correctly rounded quotient.  The operands of the
    one division in [heuristics.py] are two [len(...)] results, which
    CPython keeps below [2^63]; the [OverflowError] of a quotient beyond the
    binary64 range cannot arise from them and is left out. *)
Definition int_truediv (a b : Z) : result float :=
  if b =? 0 then Raise ZeroDivisionError
  else Ok (quotient a b).

(** [float(x)] *)
Definition to_float (x : num) : result float :=
  match x with
  | Int z => float_of_int z
  | Flt f => Ok f
  end.

(** [x * y] and [x - y]: exact on two [int]s; as soon as one operand is a
    [float] the other is converted and the operation is binary64's. *)
Definition mul (x y : num) : result num :=
  match x, y with
  | Int a, Int b => Ok (Int (a * b))
  | _, _ =>
      bind (to_float x) (fun f =>
      bind (to_float y) (fun g => Ok (Flt (PrimFloat.mul f g))))
  end.

Definition sub (x y : num) : result num :=
  match x, y with
  | Int a, Int b => Ok (Int (a - b))
  | _, _ =>
      bind (to_float x) (fun f =>
      bind (to_float y) (fun g => Ok (Flt (PrimFloat.sub f g))))
  end.

(** [len(l)] *)
Definition len {A : Type} (l : list A) : Z := Z.of_nat (List.length l).

(** *** Dynamically typed values, for [argmax]

    [argmax] applies its scoring function both to the elements and to the
    sequence itself, and compares the scores with [>]; the values below
    are the ones such a call is made of in this repository: [None],
    integers, strings, tuples (a move is a pair of integers) and lists. *)
#[warnings="-register-all"]
Inductive value : Type :=
| VNone
| VInt (z : Z)
| VStr (s : string)
| VTuple (l : list value)
| VList (l : list value).

(** [a == b]: structural on two values of one type, [False] across types. *)
Fixpoint py_eq (a b : value) {struct a} : bool :=
  let fix eq_items (l1 l2 : list value) {struct l1} : bool :=
    match l1, l2 with
    | [], [] => true
    | x :: t1, y :: t2 => py_eq x y && eq_items t1 t2
    | _, _ => false
    end in
  match a, b with
  | VNone, VNone => true
  | VInt x, VInt y => x =? y
  | VStr s, VStr t => String.eqb s t
  | VTuple l1, VTuple l2 => eq_items l1 l2
  | VList l1, VList l2 => eq_items l1 l2
  | _, _ => false
  end.

(** [a > b]: integers by value, strings, tuples and lists
    lexicographically (the first pair of items that are not [==] decides,
    by [>] on that pair; otherwise the longer one is greater); every other
    pairing is unsupported and raises [TypeError]. *)
Fixpoint py_gt (a b : value) {struct a} : result bool :=
  let fix gt_items (l1 l2 : list value) {struct l1} : result bool :=
    match l1, l2 with
    | [], _ => Ok false
    | _ :: _, [] => Ok true
    | x :: t1, y :: t2 => if py_eq x y then gt_items t1 t2 else py_gt x y
    end in
  match a, b with
  | VInt x, VInt y => Ok (x >? y)
  | VStr s, VStr t => Ok (String.ltb t s)
  | VTuple l1, VTuple l2 => gt_items l1 l2
  | VList l1, VList l2 => gt_items l1 l2
  | _, _ => Raise TypeError
  end.

End Py.

Import Py.

Declare Scope py_scope.
Delimit Scope py_scope with py.
Notation "x <- e ;; k" := (bind e (fun x => k))
  (at level 61, e at next level, right associativity) : py_scope.
Local Open Scope py_scope.

(** ** The board, as [heuristics.py] sees it

    [isolation.Board] is imported by [heuristics.py]; the evaluator only
    calls the methods below, with these arities.  [get_legal_moves] has an
    optional argument ([player=None]): [None] is the call without it. *)

Class Board (State Player Move Cell : Type) : Type := {
  width : State -> Z;
  height : State -> Z;
  active_player : State -> Player;
  inactive_player : State -> Player;
  is_loser : State -> Player -> bool;
  is_winner : State -> Player -> bool;
  get_legal_moves : State -> option Player -> list Move;
  forecast_move : State -> Move -> State;
  get_opponent : State -> Player -> Player;
  get_blank_spaces : State -> list Cell
}.

(** Modelled from the spec: the contract of [isolation.Board], whose source
    is not part of the repository's heuristics modules.  A state is
    non-terminal or has exactly one winner and one loser, so no player is
    both; [get_legal_moves] without a player is about the active player;
    the game has two participants, so the opponent of the inactive player is
    the active one. *)
Class BoardLaws {State Player Move Cell : Type}
  (B : Board State Player Move Cell) : Prop := {
  loser_not_winner :
    forall s p, is_loser s p = true -> is_winner s p = false;
  legal_moves_default :
    forall s, get_legal_moves s None = get_legal_moves s (Some (active_player s));
  opponent_of_inactive :
    forall s, get_opponent s (inactive_player s) = active_player s
}.

(** ** heuristics.py: class [Heuristic] *)

Section Heuristic.

Context {State Player Move Cell : Type} {B : Board State Player Move Cell}.

(** A strategy is a bound method taking the state alone. *)
Definition strategy : Type := State -> result float.

(** The body of the [for future_state in states_one_step_ahead] loop. *)
Definition mobility_step (best_moves_ahead : Z) (future_state : State) : Z :=
  let num_new_moves :=
    len (get_legal_moves future_state (Some (inactive_player future_state))) in
  Z.max best_moves_ahead num_new_moves.

Definition action_mobility (state : State) : result float :=
  let legal_moves := get_legal_moves state None in
  let states_one_step_ahead := map (forecast_move state) legal_moves in
  let best_moves_ahead := fold_left mobility_step states_one_step_ahead 0 in
  int_truediv best_moves_ahead (len legal_moves).

Definition default_weight : num := Flt 2.5%float.

(** The three local variables of [the_super_duper_hugo_heuristic]. *)
Definition filled_spaces (state : State) : Z :=
  width state * height state - len (get_blank_spaces state).

Definition player_moves (state : State) : Z :=
  len (get_legal_moves state None).

Definition opponent_moves (state : State) : Z :=
  len (get_legal_moves state
         (Some (get_opponent state (inactive_player state)))).

(** [float((player_moves - weight * opponent_moves) * filled_spaces)] *)
Definition weighted_differential (weight : num)
  (player_moves opponent_moves filled_spaces : Z) : result float :=
  penalty <- mul weight (Int opponent_moves) ;;
  diff <- sub (Int player_moves) penalty ;;
  value <- mul diff (Int filled_spaces) ;;
  to_float value.

Definition the_super_duper_hugo_heuristic (state : State) (weight : num)
  : result float :=
  weighted_differential weight
    (player_moves state) (opponent_moves state) (filled_spaces state).

Definition action_focus (state : State) : result float :=
  mobility <- action_mobility state ;;
  Ok (1 - mobility)%float.

(** The [methods] dictionary of [score]. *)
Definition methods : list (string * strategy) :=
  [ ("action_mobility"%string, action_mobility);
    ("action_focus"%string, action_focus);
    ("the_super_duper_hugo_heuristic"%string,
      fun state => the_super_duper_hugo_heuristic state default_weight) ].

(** [d[key]] on a dictionary given by its items. *)
Fixpoint getitem {V : Type} (d : list (string * V)) (key : string) : result V :=
  match d with
  | [] => Raise (KeyError key)
  | (k, v) :: d' => if String.eqb k key then Ok v else getitem d' key
  end.

(** [score] after its dictionary has been built; [score] itself runs it on
    [methods].  Keeping the table a parameter lets a statement range over
    what the strategies do. *)
Definition score_with (table : list (string * strategy))
  (state : State) (player : Player) (method : string) : result float :=
  if is_loser state player then Ok neg_infinity
  else if is_winner state player then Ok infinity
  else
    f <- getitem table method ;;
    f state.

Definition score (state : State) (player : Player) (method : string)
  : result float :=
  score_with methods state player method.

Definition default_method : string := "action_mobility".

(** The keys of [methods]. *)
Definition registered : list string := map fst methods.

(** The number of moves that [move] leaves the player who makes it: the
    legal moves, in the forecast state, of its inactive player. *)
Definition follow_up_moves (state : State) (move : Move) : Z :=
  len (get_legal_moves (forecast_move state move)
         (Some (inactive_player (forecast_move state move)))).


End Heuristic.

(** ** isolation_utilities.py *)

(** The [for i in seq] loop of [argmax], on the pair [(best, best_score)]. *)
Fixpoint argmax_loop (fn : value -> result value) (seq : list value)
  (best best_score : value) : result value :=
  match seq with
  | [] => Ok best
  | i :: rest =>
      n_score <- fn i ;;
      better <- py_gt n_score best_score ;;
      if (better : bool) then argmax_loop fn rest i n_score
      else argmax_loop fn rest best best_score
  end.

Definition argmax (seq : list value) (fn : value -> result value) : result value :=
  best <- match seq with
          | [] => Raise IndexError
          | x :: _ => Ok x
          end ;;
  best_score <- fn (VList seq) ;;
  argmax_loop fn seq best best_score.

(** Two scoring functions: [lambda x: x] and [len] (a string is taken to
    hold one-byte characters). *)
Definition identity (v : value) : result value := Ok v.

Definition len_score (v : value) : result value :=
  match v with
  | VStr s => Ok (VInt (Z.of_nat (String.length s)))
  | VTuple l | VList l => Ok (VInt (len l))
  | _ => Raise TypeError
  end.

(** What the docstring of [argmax] asks of its result on integer scores:
    an element of the sequence whose score no element's score exceeds, and
    the first such element. *)
Fixpoint first_largest (score_of : value -> Z) (seq : list value) : option value :=
  match seq with
  | [] => None
  | x :: rest =>
      match first_largest score_of rest with
      | None => Some x
      | Some y => if score_of y >? score_of x then Some y else Some x
      end
  end.

(** ** A board given by its table

    A state lists what the methods of the board answer: the dimensions, the
    blank cells, whose turn it is, the winner if the game is over, the moves
    of the player to move, each with the state it leads to, and the moves
    the other player would have. It is the board of the scenarios below. *)

Module TableBoard.

Inductive Player : Type := Player1 | Player2.

Definition Cell : Type := (Z * Z)%type.
Definition Move : Type := (Z * Z)%type.

Definition other (p : Player) : Player :=
  match p with
  | Player1 => Player2
  | Player2 => Player1
  end.

Definition player_eqb (p q : Player) : bool :=
  match p, q with
  | Player1, Player1 | Player2, Player2 => true
  | _, _ => false
  end.

Definition move_eqb (m n : Move) : bool :=
  (fst m =? fst n) && (snd m =? snd n).

#[warnings="-register-all"]
Inductive State : Type :=
| Position (columns rows : Z) (blank : list Cell) (to_move : Player)
    (winner : option Player)
    (moves : list (Move * State)) (waiting_moves : list Move).

Definition to_move (s : State) : Player :=
  let '(Position _ _ _ p _ _ _) := s in p.

Definition moves (s : State) : list (Move * State) :=
  let '(Position _ _ _ _ _ ms _) := s in ms.

Definition waiting_moves (s : State) : list Move :=
  let '(Position _ _ _ _ _ _ ws) := s in ws.

Definition winner (s : State) : option Player :=
  let '(Position _ _ _ _ w _ _) := s in w.

Definition after (s : State) (m : Move) : State :=
  match find (fun entry => move_eqb (fst entry) m) (moves s) with
  | Some entry => snd entry
  | None => s
  end.

#[global] Instance board : Board State Player Move Cell := {
  width := fun s => let '(Position w _ _ _ _ _ _) := s in w;
  height := fun s => let '(Position _ h _ _ _ _ _) := s in h;
  active_player := to_move;
  inactive_player := fun s => other (to_move s);
  is_loser := fun s p =>
    match winner s with
    | Some w => player_eqb (other w) p
    | None => false
    end;
  is_winner := fun s p =>
    match winner s with
    | Some w => player_eqb w p
    | None => false
    end;
  get_legal_moves := fun s who =>
    match who with
    | None => map fst (moves s)
    | Some p => if player_eqb p (to_move s) then map fst (moves s)
                else waiting_moves s
    end;
  forecast_move := after;
  get_opponent := fun _ p => other p;
  get_blank_spaces := fun s => let '(Position _ _ b _ _ _ _) := s in b
}.

(** All the cells of a [columns] by [rows] board. *)
Definition cells (columns rows : nat) : list Cell :=
  flat_map (fun i => map (fun j => (Z.of_nat i, Z.of_nat j)) (seq 0 rows))
    (seq 0 columns).

(** A position nobody can move from, reached by a move. *)
Definition leaf (columns rows : Z) (blank : list Cell) (p : Player)
  (waiting : list Move) : State :=
  Position columns rows blank p None [] waiting.

(** Section 8 of the spec, first scenario: an empty 3 by 3 board; the
    player to move has three moves, which leave them 2, 2 and 3 moves. *)
Definition three_by_three : State :=
  let blank := cells 3 3 in
  Position 3 3 blank Player1 None
    [ ((0, 0), leaf 3 3 blank Player2 [(1, 2); (2, 1)]);
      ((0, 2), leaf 3 3 blank Player2 [(1, 0); (2, 1)]);
      ((1, 1), leaf 3 3 blank Player2 [(0, 0); (0, 2); (2, 0)]) ]
    [(2, 2)].

(** One move that leaves its mover five moves: a ratio above one. *)
Definition opening : State :=
  Position 7 7 (cells 7 7) Player1 None
    [ ((3, 3), leaf 7 7 (cells 7 7) Player2
                 [(1, 2); (1, 4); (2, 1); (2, 5); (4, 1)]) ]
    [].

(** Section 8 of the spec, second scenario: 8 filled cells (a 7 by 7 board
    with 41 blank ones), 4 moves for the player to move, 2 for the other. *)
Definition midgame : State :=
  Position 7 7 (firstn 41 (cells 7 7)) Player1 None
    [ ((1, 2), leaf 7 7 [] Player2 []);
      ((1, 4), leaf 7 7 [] Player2 []);
      ((2, 1), leaf 7 7 [] Player2 []);
      ((2, 5), leaf 7 7 [] Player2 []) ]
    [(5, 6); (6, 5)].


(** The player to move has no move left and has lost. *)
Definition lost : State :=
  Position 3 3 [] Player1 (Some Player2) [] [(0, 0)].

(** No move for the player to move, and the game not marked as over: what
    a caller that skips the terminal test hands to a strategy. *)
Definition stuck : State :=
  Position 3 3 [] Player1 None [] [].

End TableBoard.

(** ** Binary64 values of integers, for the proofs *)

(** [p] followed by [k] zero bits. *)
Definition shl (p : positive) (k : nat) : positive := Nat.iter k xO p.

(** The binary64 number of value [p * 2^e] and sign [s], for [p] of at most
    53 bits: the mantissa is [p] padded to 53 bits. *)
Definition canon (s : bool) (p : positive) (e : Z) : spec_float :=
  S754_finite s (shl p (Z.to_nat (53 - Zpos (digits2_pos p))))
    (Zpos (digits2_pos p) + e - 53).

Definition is_finite_sf (r : spec_float) : bool :=
  match r with
  | S754_zero _ | S754_finite _ _ _ => true
  | _ => false
  end.


(** ** A board given by its counts

    What [the_super_duper_hugo_heuristic] reads of a board are three
    lengths.  This board is known by them alone: either player has [moves]
    legal moves and [filled] cells of a row are filled. *)

Module CountBoard.

Record State : Type := { moves : Z; filled : Z }.

#[global] Instance board : Board State bool unit unit := {
  width := filled;
  height := fun _ => 1;
  active_player := fun _ => true;
  inactive_player := fun _ => false;
  is_loser := fun _ _ => false;
  is_winner := fun _ _ => false;
  get_legal_moves := fun s _ => repeat tt (Z.to_nat (moves s));
  forecast_move := fun s _ => s;
  get_opponent := fun _ p => negb p;
  get_blank_spaces := fun _ => []
}.


End CountBoard.

(** A table whose strategies all fail: none of them can be run unnoticed. *)
Definition failing_table {State : Type} : list (string * (State -> result float)) :=
  [ ("action_mobility"%string, fun _ => Raise TypeError);
    ("action_focus"%string, fun _ => Raise TypeError);
    ("the_super_duper_hugo_heuristic"%string, fun _ => Raise TypeError) ].

(** ** The rest of the two modules, and more scenarios *)

(** [state_focus] is a stub: its body is [pass], so it returns [None]. It is
    not an entry of [methods]. *)
Definition state_focus {State : Type} (state : State) : value := VNone.

(** The integer [len] gives a value, [0] where [len] is not defined. *)
Definition length_of (v : value) : Z :=
  match len_score v with
  | Ok (VInt z) => z
  | _ => 0
  end.

(** [TableBoard.midgame] with the other player left without a move. *)
Definition cornered_midgame : TableBoard.State :=
  TableBoard.Position 7 7 (firstn 41 (TableBoard.cells 7 7)) TableBoard.Player1 None
    [ ((1, 2), TableBoard.leaf 7 7 [] TableBoard.Player2 []);
      ((1, 4), TableBoard.leaf 7 7 [] TableBoard.Player2 []);
      ((2, 1), TableBoard.leaf 7 7 [] TableBoard.Player2 []);
      ((2, 5), TableBoard.leaf 7 7 [] TableBoard.Player2 []) ]
    [].

(** [TableBoard.three_by_three] with its moves listed in another order. *)
Definition three_by_three_reordered : TableBoard.State :=
  let blank := TableBoard.cells 3 3 in
  TableBoard.Position 3 3 blank TableBoard.Player1 None
    [ ((1, 1), TableBoard.leaf 3 3 blank TableBoard.Player2 [(0, 0); (0, 2); (2, 0)]);
      ((0, 0), TableBoard.leaf 3 3 blank TableBoard.Player2 [(1, 2); (2, 1)]);
      ((0, 2), TableBoard.leaf 3 3 blank TableBoard.Player2 [(1, 0); (2, 1)]) ]
    [(2, 2)].

(** * Properties *)

Local Open Scope string_scope.

(** The table board keeps the contract of the board. *)
#[export] Instance table_board_laws : BoardLaws TableBoard.board.
Proof.
  split.
  - intros s p; cbn. destruct (TableBoard.winner s) as [w|]; [|discriminate].
    destruct w, p; cbn; congruence.
  - intros s; cbn. destruct (TableBoard.to_move s); reflexivity.
  - intros s; cbn. destruct (TableBoard.to_move s); reflexivity.
Qed.

(** ** Dictionary lookup *)

Lemma getitem_absent {V : Type} (d : list (string * V)) (key : string) :
  ~ In key (map fst d) -> getitem d key = Raise (KeyError key).
Proof.
  induction d as [|[k v] d IH]; cbn; intros Hnot.
  - reflexivity.
  - destruct (String.eqb_spec k key) as [->|Hne].
    + exfalso; apply Hnot; now left.
    + apply IH. intros Hin; apply Hnot; now right.
Qed.

Lemma getitem_present {V : Type} (d : list (string * V)) (key : string) :
  In key (map fst d) -> exists v, getitem d key = Ok v /\ In (key, v) d.
Proof.
  induction d as [|[k v] d IH]; cbn; intros Hin.
  - contradiction.
  - destruct (String.eqb_spec k key) as [->|Hne].
    + exists v; split; [reflexivity | now left].
    + destruct Hin as [Heq|Hin]; [contradiction|].
      destruct (IH Hin) as (v' & Hget & Hv'). exists v'; split; [assumption | now right].
Qed.

(** Two binary64 values are different as soon as their decodings are. *)
Lemma float_neq (x y : float) : Prim2SF x <> Prim2SF y -> x <> y.
Proof. intros Hne Heq; apply Hne; now rewrite Heq. Qed.

Lemma Ok_neq {A : Type} (x y : A) : x <> y -> Ok x <> Ok y.
Proof. intros Hne Heq; apply Hne; now injection Heq. Qed.

(** ** [score] on terminal states *)

Section Terminal.

Context {State Player Move Cell : Type} {B : Board State Player Move Cell}.

Lemma score_with_loser (table : list (string * strategy)) s p method :
  is_loser s p = true -> score_with table s p method = Ok neg_infinity.
Proof. intros Hl; unfold score_with; now rewrite Hl. Qed.

Lemma score_with_winner `{!BoardLaws B} (table : list (string * strategy)) s p method :
  is_winner s p = true -> score_with table s p method = Ok infinity.
Proof.
  intros Hw; unfold score_with.
  destruct (is_loser s p) eqn:Hl.
  - apply loser_not_winner in Hl; congruence.
  - now rewrite Hw.
Qed.

Lemma score_with_open (table : list (string * strategy)) s p method :
  is_loser s p = false -> is_winner s p = false ->
  score_with table s p method = (f <- getitem table method ;; f s).
Proof. intros Hl Hw; unfold score_with; now rewrite Hl, Hw. Qed.

End Terminal.

(** C1. On a state that marks the player as a loser, [score] returns
    negative infinity, and on a state that marks the player as a winner it
    returns positive infinity, for every registered strategy identifier.
    The outcome does not depend on what the strategies of the table do (it
    is the same for every table, also one whose strategies all raise): the
    terminal test is answered before a strategy is looked up or run. *)
Theorem score_terminal_shortcut
  {State Player Move Cell : Type} (B : Board State Player Move Cell)
  (laws : BoardLaws B) (state : State) (player : Player) (method : string) :
  In method registered ->
  (is_loser state player = true ->
     score state player method = Ok neg_infinity /\
     forall table, score_with table state player method = Ok neg_infinity) /\
  (is_winner state player = true ->
     score state player method = Ok infinity /\
     forall table, score_with table state player method = Ok infinity).
Proof.
  intros _; split; intros Hflag; split; intros;
    solve [ now apply score_with_loser | now apply score_with_winner ].
Qed.

Lemma score_terminal_shortcut_witness :
  In "action_focus"%string (registered (B := TableBoard.board)) /\
  score TableBoard.lost TableBoard.Player1 "action_focus" = Ok neg_infinity /\
  score TableBoard.lost TableBoard.Player2 "action_focus" = Ok infinity /\
  score_with failing_table TableBoard.lost TableBoard.Player1 "action_focus"
    = Ok neg_infinity /\
  score_with failing_table TableBoard.lost TableBoard.Player2 "action_focus"
    = Ok infinity /\
  action_focus TableBoard.lost = Raise ZeroDivisionError.
Proof.
  assert (Hreg : In "action_focus"%string (registered (B := TableBoard.board)))
    by (cbn; tauto).
  pose proof (score_terminal_shortcut _ table_board_laws TableBoard.lost
                TableBoard.Player1 "action_focus" Hreg) as [Hloser _].
  pose proof (score_terminal_shortcut _ table_board_laws TableBoard.lost
                TableBoard.Player2 "action_focus" Hreg) as [_ Hwinner].
  destruct (Hloser eq_refl) as [H1 H2].
  destruct (Hwinner eq_refl) as [H3 H4].
  exact (conj Hreg (conj H1 (conj H3
           (conj (H2 failing_table) (conj (H4 failing_table) eq_refl))))).
Defined.

(** C9. On a state that marks the player as a loser or as a winner,
    [score] returns negative, respectively positive, infinity for any
    method string at all, registered or not: the dictionary is not
    consulted, so no [KeyError] comes out of a terminal state. *)
Theorem score_terminal_any_method
  {State Player Move Cell : Type} (B : Board State Player Move Cell)
  (laws : BoardLaws B) (state : State) (player : Player) (method : string) :
  (is_loser state player = true ->
     score state player method = Ok neg_infinity) /\
  (is_winner state player = true ->
     score state player method = Ok infinity) /\
  (is_loser state player = true \/ is_winner state player = true ->
     forall e, score state player method <> Raise e).
Proof.
  assert (Hl : is_loser state player = true ->
               score state player method = Ok neg_infinity)
    by (intros; now apply score_with_loser).
  assert (Hw : is_winner state player = true ->
               score state player method = Ok infinity)
    by (intros; now apply score_with_winner).
  repeat split; try assumption.
  intros [H|H] e; [rewrite (Hl H) | rewrite (Hw H)]; discriminate.
Qed.

Lemma score_terminal_any_method_witness :
  ~ In "state_focus"%string (registered (B := TableBoard.board)) /\
  score TableBoard.lost TableBoard.Player1 "state_focus" = Ok neg_infinity /\
  score TableBoard.lost TableBoard.Player2 "state_focus" = Ok infinity.
Proof.
  split.
  - cbn. intros [H|[H|[H|[]]]]; discriminate H.
  - split.
    + exact (proj1 (score_terminal_any_method _ table_board_laws TableBoard.lost
                      TableBoard.Player1 "state_focus") eq_refl).
    + exact (proj1 (proj2 (score_terminal_any_method _ table_board_laws
                      TableBoard.lost TableBoard.Player2 "state_focus")) eq_refl).
Defined.

(** ** [score] on an unregistered method *)

(** C6, as stated, fails.  On a state that marks the player as a loser,
    [score] with the unregistered ["state_focus"] does not fail: it returns
    negative infinity.  On a state that is open, the exception it raises
    carries the requested key and nothing else, not the registered
    identifiers, and is not an [UnknownStrategyError]. *)
Lemma score_unregistered_counterexample :
  ~ In "state_focus" (registered (B := TableBoard.board)) /\
  ~ (exists e, score TableBoard.lost TableBoard.Player1 "state_focus" = Raise e) /\
  ~ (exists e, score TableBoard.midgame TableBoard.Player1 "state_focus" = Raise e /\
               incl (registered (B := TableBoard.board)) (args e)) /\
  ~ (exists e, score TableBoard.midgame TableBoard.Player1 "state_focus" = Raise e /\
               class_name e = "UnknownStrategyError").
Proof.
  repeat split.
  - cbn. intros [H|[H|[H|[]]]]; discriminate H.
  - intros [e He]. discriminate He.
  - intros [e [He Hincl]]. injection He as <-.
    specialize (Hincl "action_mobility" (or_introl eq_refl)).
    cbn in Hincl. destruct Hincl as [H|[]]; discriminate H.
  - intros [e [He Hname]]. injection He as <-. discriminate Hname.
Qed.

(** C6, amended. On a state that marks the player neither as a loser nor
    as a winner, [score] with a method that is not a key of [methods] raises
    [KeyError], whose only argument is the requested method; no strategy is
    run in its place, so nothing is returned, and the same holds for any
    table of strategies.  (The evaluator is a function of its arguments:
    it has no state that a failure could leave half changed.) *)
Theorem score_unregistered_raises
  {State Player Move Cell : Type} (B : Board State Player Move Cell)
  (state : State) (player : Player) (method : string) :
  is_loser state player = false ->
  is_winner state player = false ->
  ~ In method registered ->
  score state player method = Raise (KeyError method) /\
  args (KeyError method) = [method] /\
  (forall v, score state player method <> Ok v) /\
  (forall table, ~ In method (map fst table) ->
     score_with table state player method = Raise (KeyError method)).
Proof.
  intros Hl Hw Hnot.
  assert (Hraise : forall table, ~ In method (map fst table) ->
            score_with table state player method = Raise (KeyError method)).
  { intros table Habs. rewrite score_with_open by assumption.
    now rewrite (getitem_absent _ _ Habs). }
  assert (Hscore : score state player method = Raise (KeyError method))
    by (apply Hraise; exact Hnot).
  repeat split; try assumption.
  intros v; rewrite Hscore; discriminate.
Qed.

Lemma score_unregistered_raises_witness :
  score TableBoard.midgame TableBoard.Player1 "state_focus"
    = Raise (KeyError "state_focus") /\
  score TableBoard.midgame TableBoard.Player2 "state_focus"
    = Raise (KeyError "state_focus").
Proof.
  assert (Hnot : ~ In "state_focus" (registered (B := TableBoard.board))).
  { cbn. intros [H|[H|[H|[]]]]; discriminate H. }
  split.
  - exact (proj1 (score_unregistered_raises _ TableBoard.midgame
                    TableBoard.Player1 "state_focus" eq_refl eq_refl Hnot)).
  - exact (proj1 (score_unregistered_raises _ TableBoard.midgame
                    TableBoard.Player2 "state_focus" eq_refl eq_refl Hnot)).
Defined.

(** ** The player argument of [score] *)

(** C8. On a state that marks neither of two players as a loser or as a
    winner, [score] returns the same for both, whatever the method: the
    player is read by the two terminal tests only, and for a registered
    method the value is that of the strategy, which is given the state
    alone. *)
Theorem score_player_independent
  {State Player Move Cell : Type} (B : Board State Player Move Cell)
  (state : State) (p q : Player) (method : string) :
  is_loser state p = false -> is_winner state p = false ->
  is_loser state q = false -> is_winner state q = false ->
  score state p method = score state q method /\
  (In method registered ->
     exists f, In (method, f) methods /\
               score state p method = f state /\ score state q method = f state).
Proof.
  intros Hlp Hwp Hlq Hwq. unfold score.
  rewrite !score_with_open by assumption. split; [reflexivity|].
  intros Hreg. destruct (getitem_present methods method Hreg) as (f & Hget & Hin).
  exists f. rewrite Hget. cbn. auto.
Qed.

Lemma score_player_independent_witness :
  score TableBoard.midgame TableBoard.Player1 "the_super_duper_hugo_heuristic"
  = score TableBoard.midgame TableBoard.Player2 "the_super_duper_hugo_heuristic" /\
  score TableBoard.three_by_three TableBoard.Player1 "action_mobility"
  = score TableBoard.three_by_three TableBoard.Player2 "action_mobility".
Proof.
  split.
  - exact (proj1 (score_player_independent _ TableBoard.midgame
                    TableBoard.Player1 TableBoard.Player2
                    "the_super_duper_hugo_heuristic"
                    eq_refl eq_refl eq_refl eq_refl)).
  - exact (proj1 (score_player_independent _ TableBoard.three_by_three
                    TableBoard.Player1 TableBoard.Player2 "action_mobility"
                    eq_refl eq_refl eq_refl eq_refl)).
Defined.

(** ** [action_mobility] and [action_focus] *)

(** The running maximum of a loop: it is at least its start, at least every
    number met, and is the start or one of the numbers. *)
Lemma fold_left_max_spec (l : list Z) (a : Z) :
  a <= fold_left Z.max l a /\
  (forall x, In x l -> x <= fold_left Z.max l a) /\
  (fold_left Z.max l a = a \/ In (fold_left Z.max l a) l).
Proof.
  revert a; induction l as [|x l IH]; intros a; cbn.
  - repeat split; [lia | contradiction | now left].
  - destruct (IH (Z.max a x)) as (Hge & Hall & Hin). repeat split.
    + lia.
    + intros y [<-|Hy]; [lia | now apply Hall].
    + destruct Hin as [Heq|Hin]; [|right; now right].
      destruct (Z.max_spec a x) as [[_ Hm]|[_ Hm]]; rewrite Hm in *.
      * right; left; now symmetry.
      * now left.
Qed.

Section Mobility.

Context {State Player Move Cell : Type} {B : Board State Player Move Cell}.

Lemma mobility_loop (state : State) (moves : list Move) (a : Z) :
  fold_left mobility_step (map (forecast_move state) moves) a
  = fold_left Z.max (map (follow_up_moves state) moves) a.
Proof.
  revert a; induction moves as [|m moves IH]; intros a; cbn; [reflexivity|].
  now rewrite IH.
Qed.

Lemma follow_up_moves_nonneg (state : State) (m : Move) :
  0 <= follow_up_moves state m.
Proof. unfold follow_up_moves, len; lia. Qed.

(** The maximum that the loop of [action_mobility] ends with. *)
Lemma best_moves_ahead_spec (state : State) (moves : list Move) :
  moves <> [] ->
  let best := fold_left Z.max (map (follow_up_moves state) moves) 0 in
  (exists m, In m moves /\ follow_up_moves state m = best) /\
  (forall m, In m moves -> follow_up_moves state m <= best).
Proof.
  intros Hne best.
  destruct (fold_left_max_spec (map (follow_up_moves state) moves) 0)
    as (Hge & Hall & Hin). fold best in Hge, Hall, Hin.
  assert (Hbound : forall m, In m moves -> follow_up_moves state m <= best)
    by (intros m Hm; apply Hall; now apply in_map).
  split; [|exact Hbound].
  destruct Hin as [Hzero|Hin].
  - destruct moves as [|m moves]; [contradiction|].
    exists m; split; [now left|].
    pose proof (Hbound m (or_introl eq_refl)).
    pose proof (follow_up_moves_nonneg state m). lia.
  - apply in_map_iff in Hin as (m & Hm & Hin). now exists m.
Qed.

Lemma len_zero_iff {A : Type} (l : list A) : len l = 0 <-> l = [].
Proof.
  unfold len; destruct l; cbn; split; intros H;
    try reflexivity; try discriminate; lia.
Qed.

Lemma action_mobility_no_moves (state : State) :
  get_legal_moves state None = [] ->
  action_mobility state = Raise ZeroDivisionError.
Proof. intros Hnone; unfold action_mobility; now rewrite Hnone. Qed.

Lemma action_mobility_some_moves (state : State) :
  get_legal_moves state None <> [] ->
  action_mobility state
  = Ok (quotient
          (fold_left Z.max
             (map (follow_up_moves state) (get_legal_moves state None)) 0)
          (len (get_legal_moves state None))).
Proof.
  intros Hne. unfold action_mobility, int_truediv.
  rewrite mobility_loop.
  destruct (Z.eqb_spec (len (get_legal_moves state None)) 0) as [Hz|_].
  - now apply len_zero_iff in Hz.
  - reflexivity.
Qed.

End Mobility.

(** C2. When the player to move has a legal move, [action_mobility]
    returns, as a float, [best / len(legal_moves)], where [best] is the
    largest number of follow-up moves that a legal move leaves the player
    who makes it (the legal moves of the inactive player in the forecast
    state): some legal move leaves [best], none leaves more.  The ratio is
    returned as it is.  In particular, three legal moves that leave 2, 2 and
    3 follow-up moves give [1.0], and one legal move that leaves 5 gives
    [5.0]. *)
Theorem action_mobility_ratio
  {State Player Move Cell : Type} (B : Board State Player Move Cell)
  (state : State) :
  get_legal_moves state None <> [] ->
  (exists best,
     (exists m, In m (get_legal_moves state None) /\
                follow_up_moves state m = best) /\
     (forall m, In m (get_legal_moves state None) ->
                follow_up_moves state m <= best) /\
     action_mobility state
     = Ok (quotient best (len (get_legal_moves state None)))) /\
  (map (follow_up_moves state) (get_legal_moves state None) = [2; 2; 3] ->
     action_mobility state = Ok 1%float) /\
  (map (follow_up_moves state) (get_legal_moves state None) = [5] ->
     action_mobility state = Ok 5%float).
Proof.
  intros Hne. pose proof (action_mobility_some_moves state Hne) as Hret.
  repeat split.
  - eexists; repeat split; [ | | exact Hret];
      now apply (best_moves_ahead_spec state _ Hne).
  - intros Hmap. rewrite Hret, Hmap.
    apply (f_equal (@List.length Z)) in Hmap. rewrite length_map in Hmap.
    unfold len; rewrite Hmap. reflexivity.
  - intros Hmap. rewrite Hret, Hmap.
    apply (f_equal (@List.length Z)) in Hmap. rewrite length_map in Hmap.
    unfold len; rewrite Hmap. reflexivity.
Qed.

Lemma action_mobility_ratio_witness :
  get_legal_moves TableBoard.three_by_three None <> [] /\
  action_mobility TableBoard.three_by_three = Ok 1%float /\
  action_mobility TableBoard.opening = Ok 5%float.
Proof.
  split; [discriminate|]. split.
  - refine (proj1 (proj2 (action_mobility_ratio _ TableBoard.three_by_three _)) _);
      [discriminate | reflexivity].
  - refine (proj2 (proj2 (action_mobility_ratio _ TableBoard.opening _)) _);
      [discriminate | reflexivity].
Defined.

(** C7, as stated, fails on the class of the error: with no legal move
    for the player to move, what [action_mobility] raises is not a
    [NoLegalMovesError]. *)
Lemma action_mobility_error_counterexample :
  get_legal_moves TableBoard.stuck None = [] /\
  ~ (exists e, action_mobility TableBoard.stuck = Raise e /\
               class_name e = "NoLegalMovesError").
Proof.
  split; [reflexivity|].
  intros [e [He Hname]]. injection He as <-. discriminate Hname.
Qed.

(** C7, amended. When the player to move has no legal move,
    [action_mobility] does not return: no test guards the division by
    [len(legal_moves)], which raises [ZeroDivisionError].  Nothing catches
    it: [action_focus] raises it too, and so does [score] with either method
    on a state that it does not take for terminal. *)
Theorem action_mobility_no_legal_moves
  {State Player Move Cell : Type} (B : Board State Player Move Cell)
  (state : State) :
  get_legal_moves state None = [] ->
  action_mobility state = Raise ZeroDivisionError /\
  class_name ZeroDivisionError = "ZeroDivisionError" /\
  (forall v, action_mobility state <> Ok v) /\
  action_focus state = Raise ZeroDivisionError /\
  (forall player,
     is_loser state player = false -> is_winner state player = false ->
     score state player "action_mobility" = Raise ZeroDivisionError /\
     score state player "action_focus" = Raise ZeroDivisionError).
Proof.
  intros Hnone. pose proof (action_mobility_no_moves state Hnone) as Hraise.
  assert (Hfocus : action_focus state = Raise ZeroDivisionError)
    by (unfold action_focus; now rewrite Hraise).
  repeat split; try assumption.
  - intros v; rewrite Hraise; discriminate.
  - unfold score; rewrite score_with_open by assumption. exact Hraise.
  - unfold score; rewrite score_with_open by assumption. exact Hfocus.
Qed.

Lemma action_mobility_no_legal_moves_witness :
  get_legal_moves TableBoard.stuck None = [] /\
  action_mobility TableBoard.stuck = Raise ZeroDivisionError /\
  score TableBoard.stuck TableBoard.Player1 "action_mobility"
    = Raise ZeroDivisionError.
Proof.
  pose proof (action_mobility_no_legal_moves _ TableBoard.stuck eq_refl)
    as (Hraise & _ & _ & _ & Hscore).
  exact (conj eq_refl
           (conj Hraise (proj1 (Hscore TableBoard.Player1 eq_refl eq_refl)))).
Defined.

(** C5. When the player to move has a legal move, [action_mobility]
    returns a float and [action_focus] returns exactly [1.0] minus it, in
    binary64 arithmetic; whenever [action_mobility] raises, [action_focus]
    raises the same exception, so with no legal move it is
    [ZeroDivisionError]; and a mobility of [5.0] gives a focus of [-4.0]. *)
Theorem action_focus_complement
  {State Player Move Cell : Type} (B : Board State Player Move Cell)
  (state : State) :
  (get_legal_moves state None <> [] ->
     exists mobility,
       action_mobility state = Ok mobility /\
       action_focus state = Ok (1 - mobility)%float) /\
  (forall e, action_mobility state = Raise e -> action_focus state = Raise e) /\
  (get_legal_moves state None = [] ->
     action_focus state = Raise ZeroDivisionError) /\
  (action_mobility state = Ok 5%float -> action_focus state = Ok (-4)%float).
Proof.
  repeat split.
  - intros Hne. eexists; split; [now apply action_mobility_some_moves|].
    unfold action_focus. now rewrite action_mobility_some_moves.
  - intros e He. unfold action_focus. now rewrite He.
  - intros Hnone. unfold action_focus.
    now rewrite (action_mobility_no_moves state Hnone).
  - intros Hfive. unfold action_focus. rewrite Hfive. reflexivity.
Qed.

Lemma action_focus_complement_witness :
  get_legal_moves TableBoard.opening None <> [] /\
  action_mobility TableBoard.opening = Ok 5%float /\
  action_focus TableBoard.opening = Ok (-4)%float /\
  action_focus TableBoard.three_by_three = Ok 0%float /\
  action_focus TableBoard.stuck = Raise ZeroDivisionError.
Proof.
  pose proof (action_focus_complement _ TableBoard.opening) as (_ & _ & _ & Hneg).
  pose proof (action_focus_complement _ TableBoard.stuck) as (_ & _ & Hstuck & _).
  pose proof (action_focus_complement _ TableBoard.three_by_three) as (Hsome & _).
  split; [discriminate|].
  split; [reflexivity|].
  split; [exact (Hneg eq_refl)|].
  split; [|exact (Hstuck eq_refl)].
  destruct (Hsome ltac:(discriminate)) as (mobility & Hm & Hf).
  rewrite Hf. injection Hm as <-. reflexivity.
Defined.

(** ** [the_super_duper_hugo_heuristic] *)

(** *** Binary64 arithmetic on integers

    [float(z)] is exact for an integer of at most 53 bits, and so are the
    product and the difference below; a longer integer is rounded to a
    valid number or overflows. *)


Lemma digits_shl p k :
  Zpos (digits2_pos (shl p k)) = Zpos (digits2_pos p) + Z.of_nat k.
Proof.
  induction k as [|k IH].
  - cbn. lia.
  - change (shl p (S k)) with (xO (shl p k)). cbn [digits2_pos].
    rewrite Pos2Z.inj_succ, IH. lia.
Qed.

Lemma iter_pos_nat {A : Type} (f : A -> A) (n : positive) (x : A) :
  iter_pos f n x = Nat.iter (Pos.to_nat n) f x.
Proof.
  revert x; induction n as [n IH|n IH|]; intros x; cbn [iter_pos].
  - rewrite !IH, Pos2Nat.inj_xI, <- Nat.iter_add, <- Nat.iter_succ_r.
    f_equal. lia.
  - rewrite !IH, Pos2Nat.inj_xO, <- Nat.iter_add. f_equal. lia.
  - reflexivity.
Qed.

Lemma pos_iter_shl p t : Pos.iter xO p t = shl p (Pos.to_nat t).
Proof. apply Pos2Nat.inj_iter. Qed.

Lemma shr_iter_shl p k j :
  Nat.iter k shr_1 (Build_shr_record (Zpos (shl p (k + j))) false false)
  = Build_shr_record (Zpos (shl p j)) false false.
Proof.
  induction k as [|k IH]; [reflexivity|].
  rewrite Nat.iter_succ_r. exact IH.
Qed.

Lemma shr_nonpos mrs e n : n <= 0 -> shr mrs e n = (mrs, e).
Proof. destruct n; cbn; [reflexivity | lia | reflexivity]. Qed.

Lemma shr_pos mrs e n :
  0 < n -> shr mrs e n = (Nat.iter (Z.to_nat n) shr_1 mrs, e + n).
Proof.
  destruct n as [|p|p]; [lia | | lia]. intros _. cbn [shr].
  now rewrite iter_pos_nat.
Qed.

Lemma fexp_normal x : -1021 <= x -> fexp prec emax x = x - 53.
Proof. intros H. unfold fexp, SpecFloat.emin, prec, emax. lia. Qed.

(** Rounding [p * 2^k * 2^e] when [p] has at most 53 bits: nothing is lost. *)
Lemma bra_exact s p k e :
  Zpos (digits2_pos p) <= 53 ->
  53 <= Zpos (digits2_pos p) + Z.of_nat k ->
  -1021 <= Zpos (digits2_pos p) + Z.of_nat k + e ->
  Zpos (digits2_pos p) + Z.of_nat k + e - 53 <= 971 ->
  binary_round_aux prec emax s (Zpos (shl p k)) e loc_Exact
  = S754_finite s (shl p (Z.to_nat (53 - Zpos (digits2_pos p))))
      (Zpos (digits2_pos p) + Z.of_nat k + e - 53).
Proof.
  set (q := Zpos (digits2_pos p)). intros Hq Hk Hlow Hhigh.
  unfold binary_round_aux, shr_fexp. cbn [Zdigits2 shr_record_of_loc].
  rewrite digits_shl. fold q. rewrite fexp_normal by lia.
  set (j := Z.to_nat (53 - q)).
  assert (Hfirst :
    shr (Build_shr_record (Zpos (shl p k)) false false) e (q + Z.of_nat k + e - 53 - e)
    = (Build_shr_record (Zpos (shl p j)) false false, q + Z.of_nat k + e - 53)).
  { destruct (Z.eq_dec (q + Z.of_nat k + e - 53 - e) 0) as [Hz|Hnz].
    - rewrite shr_nonpos by lia. replace k with j by (unfold j; lia). f_equal. lia.
    - rewrite shr_pos by lia. f_equal; [|lia].
      set (n := Z.to_nat (q + Z.of_nat k + e - 53 - e)).
      replace (shl p k) with (shl p (n + j)) by (f_equal; unfold n, j; lia).
      now rewrite shr_iter_shl. }
  rewrite Hfirst. cbn [shr_m loc_of_shr_record round_nearest_even Zdigits2 shr_record_of_loc].
  rewrite digits_shl. fold q. rewrite fexp_normal by (unfold j; lia).
  rewrite shr_nonpos by (unfold j; lia). cbn [shr_m].
  replace (q + Z.of_nat k + e - 53 <=? emax - prec)%Z with true; [reflexivity|].
  symmetry. apply Z.leb_le. unfold emax, prec. lia.
Qed.

Lemma digits_size p : digits2_pos p = Pos.size p.
Proof. induction p; cbn; congruence. Qed.

Lemma digits_upper p : Zpos p < 2 ^ Zpos (digits2_pos p).
Proof.
  rewrite digits_size. pose proof (Pos.size_gt p) as H.
  apply Pos2Z.pos_lt_pos in H. now rewrite Pos2Z.inj_pow in H.
Qed.

Lemma digits_lower p : 2 ^ (Zpos (digits2_pos p) - 1) <= Zpos p.
Proof.
  rewrite digits_size. pose proof (Pos.size_le p) as H.
  apply Pos2Z.pos_le_pos in H. rewrite Pos2Z.inj_pow, (Pos2Z.inj_xO p) in H.
  replace (Zpos (Pos.size p)) with (Z.succ (Zpos (Pos.size p) - 1)) in H by lia.
  rewrite Z.pow_succ_r in H by lia. lia.
Qed.

Lemma digits_gt p k : 0 <= k -> 2 ^ k <= Zpos p -> k < Zpos (digits2_pos p).
Proof.
  intros Hk Hle. pose proof (digits_upper p).
  apply (Z.pow_lt_mono_r_iff 2); lia.
Qed.

Lemma digits_le p k : 0 <= k -> Zpos p < 2 ^ k -> Zpos (digits2_pos p) <= k.
Proof.
  intros Hk Hlt. pose proof (digits_lower p).
  assert (Zpos (digits2_pos p) - 1 < k); [|lia].
  apply (Z.pow_lt_mono_r_iff 2); lia.
Qed.

Lemma canon_valid s p e :
  Zpos (digits2_pos p) <= 53 ->
  -1021 <= Zpos (digits2_pos p) + e -> Zpos (digits2_pos p) + e - 53 <= 971 ->
  valid_binary (canon s p e) = true.
Proof.
  intros Hq Hlow Hhigh. unfold canon, valid_binary, bounded, canonical_mantissa.
  rewrite digits_shl, fexp_normal by lia.
  apply andb_true_intro; split; [apply Z.eqb_eq | apply Z.leb_le; unfold emax, prec]; lia.
Qed.

Lemma binary_round_exact s p e :
  Zpos (digits2_pos p) <= 53 ->
  -1021 <= Zpos (digits2_pos p) + e -> Zpos (digits2_pos p) + e - 53 <= 971 ->
  binary_round prec emax s p e = canon s p e.
Proof.
  intros Hq Hlow Hhigh. unfold binary_round, shl_align.
  rewrite fexp_normal by lia.
  destruct (Zpos (digits2_pos p) + e - 53 - e) as [|t|t] eqn:Ht.
  - change p with (shl p 0) at 1. rewrite bra_exact by lia.
    unfold canon. f_equal; lia.
  - lia.
  - rewrite pos_iter_shl, bra_exact by lia. unfold canon. f_equal; lia.
Qed.





Section FiveHalves.

Variable pm : positive.
Hypothesis small : 5 * Zpos pm < 2 ^ 53.






End FiveHalves.




Lemma shr_1_m (mrs : shr_record) :
  0 <= shr_m mrs -> shr_m (shr_1 mrs) = Z.div2 (shr_m mrs).
Proof.
  destruct mrs as [m r s]. destruct m as [|[p|p|]|p]; cbn; intros H;
    try reflexivity; lia.
Qed.

Lemma shr_iter_m (k : nat) (mrs : shr_record) :
  0 <= shr_m mrs ->
  shr_m (Nat.iter k shr_1 mrs) = shr_m mrs / 2 ^ Z.of_nat k.
Proof.
  intros Hm. induction k as [|k IH].
  - cbn. now rewrite Z.div_1_r.
  - rewrite Nat.iter_succ, shr_1_m.
    + rewrite IH, Z.div2_div, Z.div_div, Nat2Z.inj_succ, Z.pow_succ_r by lia.
      f_equal. lia.
    + rewrite IH. apply Z.div_pos; lia.
Qed.

Lemma shr_nonneg mrs e n :
  0 <= n -> shr mrs e n = (Nat.iter (Z.to_nat n) shr_1 mrs, e + n).
Proof.
  intros Hn. destruct (Z.eq_dec n 0) as [->|Hne].
  - cbn. now rewrite Z.add_0_r.
  - apply shr_pos. lia.
Qed.

Lemma round_nearest_even_bounds (m : Z) (l : location) :
  m <= round_nearest_even m l <= m + 1.
Proof. destruct l as [|[| |]]; cbn; try destruct (Z.even m); lia. Qed.

Lemma digits_exactly (p : positive) (k : Z) :
  0 < k -> 2 ^ (k - 1) <= Zpos p < 2 ^ k -> Zpos (digits2_pos p) = k.
Proof.
  intros Hk [Hlow Hhigh].
  pose proof (digits_gt p (k - 1) ltac:(lia) Hlow).
  pose proof (digits_le p k ltac:(lia) Hhigh). lia.
Qed.

(** Rounding a mantissa of 53 bits or more: a valid finite number, or an
    infinity when the exponent is beyond the format. *)
Lemma bra_long (s : bool) (p : positive) (e : Z) :
  53 <= Zpos (digits2_pos p) ->
  -1021 <= Zpos (digits2_pos p) + e ->
  (binary_round_aux prec emax s (Zpos p) e loc_Exact = S754_infinity s /\
   1024 <= Zpos (digits2_pos p) + e) \/
  (exists m e',
     binary_round_aux prec emax s (Zpos p) e loc_Exact = S754_finite s m e' /\
     valid_binary (S754_finite s m e') = true).
Proof.
  set (q := Zpos (digits2_pos p)). intros Hq Hlow.
  unfold binary_round_aux, shr_fexp. cbn [Zdigits2 shr_record_of_loc]. fold q.
  rewrite fexp_normal by lia. rewrite shr_nonneg by lia.
  set (n := Z.to_nat (q + e - 53 - e)).
  set (mrs := Nat.iter n shr_1 (Build_shr_record (Zpos p) false false)).
  assert (Hm : shr_m mrs = Zpos p / 2 ^ (q - 53)).
  { unfold mrs. rewrite shr_iter_m by (cbn; lia). cbn [shr_m]. do 2 f_equal.
    unfold n. lia. }
  assert (Hbounds : 2 ^ 52 <= shr_m mrs < 2 ^ 53).
  { rewrite Hm. pose proof (digits_lower p) as Hl. pose proof (digits_upper p) as Hu.
    fold q in Hl, Hu.
    assert (Hpow : 0 < 2 ^ (q - 53)) by (apply Z.pow_pos_nonneg; lia).
    split.
    - apply Z.div_le_lower_bound; [lia|]. rewrite <- Z.pow_add_r by lia.
      replace (q - 53 + 52) with (q - 1) by lia. exact Hl.
    - apply Z.div_lt_upper_bound; [lia|]. rewrite <- Z.pow_add_r by lia.
      replace (q - 53 + 53) with q by lia. exact Hu. }
  pose proof (round_nearest_even_bounds (shr_m mrs) (loc_of_shr_record mrs)) as Hr.
  set (m1 := round_nearest_even (shr_m mrs) (loc_of_shr_record mrs)) in *.
  replace (e + (q + e - 53 - e)) with (q + e - 53) by lia.
  destruct m1 as [|m|m] eqn:Hm1; [lia | | lia].
  cbn [Zdigits2 shr_record_of_loc].
  destruct (Z.eq_dec (Zpos m) (2 ^ 53)) as [Htop|Hnot].
  - assert (m = 9007199254740992%positive) as -> by (apply Pos2Z.inj; exact Htop).
    change (Zpos (digits2_pos 9007199254740992)) with 54.
    rewrite fexp_normal by lia.
    replace (54 + (q + e - 53) - 53 - (q + e - 53)) with 1 by lia.
    cbn [shr iter_pos shr_1 shr_m].
    destruct (Z.leb_spec (q + e - 53 + 1) (emax - prec)) as [Hfit|Hover].
    + right. eexists _, _. split; [reflexivity|].
      unfold valid_binary, bounded, canonical_mantissa.
      change (Zpos (digits2_pos 4503599627370496)) with 53.
      rewrite fexp_normal by lia.
      apply andb_true_intro; split; [apply Z.eqb_eq | apply Z.leb_le]; lia.
    + left. split; [reflexivity|]. unfold emax, prec in Hover. lia.
  - assert (Hd : Zpos (digits2_pos m) = 53) by (apply digits_exactly; lia).
    rewrite Hd, fexp_normal by lia. rewrite shr_nonpos by lia. cbn [shr_m].
    destruct (Z.leb_spec (q + e - 53) (emax - prec)) as [Hfit|Hover].
    + right. eexists _, _. split; [reflexivity|].
      unfold valid_binary, bounded, canonical_mantissa.
      rewrite Hd, fexp_normal by lia.
      apply andb_true_intro; split; [apply Z.eqb_eq | apply Z.leb_le]; lia.
    + left. split; [reflexivity|]. unfold emax, prec in Hover. lia.
Qed.

Lemma binary_round_outcome (s : bool) (p : positive) :
  (binary_round prec emax s p 0 = S754_infinity s /\ 2 ^ 1023 <= Zpos p) \/
  (exists m e, binary_round prec emax s p 0 = S754_finite s m e /\
               valid_binary (S754_finite s m e) = true).
Proof.
  destruct (Z.le_gt_cases (Zpos (digits2_pos p)) 53) as [Hshort|Hlong].
  - right. rewrite binary_round_exact by lia. eexists _, _. split; [reflexivity|].
    apply (canon_valid s p 0); lia.
  - unfold binary_round, shl_align. rewrite fexp_normal by lia.
    destruct (Zpos (digits2_pos p) + 0 - 53 - 0) as [|t|t] eqn:Ht; [lia | | lia].
    destruct (bra_long s p 0) as [[Hinf Hbig]|Hfin]; try lia.
    + left. split; [exact Hinf|]. pose proof (digits_lower p) as Hl.
      apply Z.le_trans with (2 ^ (Zpos (digits2_pos p) - 1)); [|exact Hl].
      apply Z.pow_le_mono_r; lia.
    + right. exact Hfin.
Qed.

(** [float(z)] overflows, from [2^1023] on only, or is a valid finite
    number. *)
Lemma float_of_int_outcome (z : Z) :
  (float_of_int z = Raise OverflowError /\ 2 ^ 1023 <= Z.abs z) \/
  (exists r, float_of_int z = Ok (SF2Prim r) /\
             valid_binary r = true /\ is_finite_sf r = true).
Proof.
  unfold float_of_int. destruct z as [|p|p]; cbn [binary_normalize].
  - right. exists (S754_zero false). repeat split.
  - destruct (binary_round_outcome false p) as [[-> Hbig]|(m & e & -> & Hvalid)].
    + left. split; [reflexivity | exact Hbig].
    + right. exists (S754_finite false m e). repeat split. exact Hvalid.
  - destruct (binary_round_outcome true p) as [[-> Hbig]|(m & e & -> & Hvalid)].
    + left. split; [reflexivity | exact Hbig].
    + right. exists (S754_finite true m e). repeat split. exact Hvalid.
Qed.








(** The board of counts keeps the contract of the board. *)
#[export] Instance count_board_laws : BoardLaws CountBoard.board.
Proof. split; reflexivity. Qed.






(** C3. The scenario of the claim: 8 filled cells, 4 moves for the player
    to move, 2 for the other player, default weight.  The claim's formula
    gives [(4 - 2.5 * 2) * 8 = -8.0]; the function counts the moves of the
    player to move a second time and returns [(4 - 2.5 * 4) * 8 = -48.0],
    also through [score]. *)
Theorem weighted_differential_scenario :
  filled_spaces TableBoard.midgame = 8 /\
  player_moves TableBoard.midgame = 4 /\
  len (get_legal_moves TableBoard.midgame
         (Some (inactive_player TableBoard.midgame))) = 2 /\
  weighted_differential default_weight 4 2 8 = Ok (-8)%float /\
  the_super_duper_hugo_heuristic TableBoard.midgame default_weight
    = Ok (-48)%float /\
  score TableBoard.midgame TableBoard.Player1 "the_super_duper_hugo_heuristic"
    = Ok (-48)%float /\
  Ok (-48)%float <> Ok (-8)%float.
Proof.
  do 6 (split; [reflexivity|]).
  apply Ok_neq, float_neq. vm_compute. discriminate.
Qed.

(** ** [argmax] *)

(** Scored by the identity, a non-empty list of integers makes [argmax]
    raise: the first comparison is between an integer and the list. *)
Lemma argmax_identity_on_ints (z : Z) (zs : list Z) :
  argmax (map VInt (z :: zs)) identity = Raise TypeError.
Proof. reflexivity. Qed.

Lemma argmax_empty (fn : value -> result value) : argmax [] fn = Raise IndexError.
Proof. reflexivity. Qed.

(** C4. [argmax] on the inputs of the claim: on [[3, 7, 2]] scored by the
    identity the element with the greatest score is [7], and on [[5]] it is
    [5], but [argmax] raises [TypeError] on both, since [best_score] starts
    as [fn(seq)], the score of the whole sequence.  Where that score can be
    compared, the answer can be wrong without an error: scored by [len],
    [[[1], [2, 3], [2, 3, 4]]] gives [[1]].  On the empty sequence [seq[0]]
    raises [IndexError], whatever the scoring function. *)
Theorem argmax_scores_whole_sequence :
  argmax [VInt 3; VInt 7; VInt 2] identity = Raise TypeError /\
  first_largest (fun v => match v with VInt z => z | _ => 0 end)
    [VInt 3; VInt 7; VInt 2] = Some (VInt 7) /\
  argmax [VInt 5] identity = Raise TypeError /\
  argmax [VList [VInt 1]; VList [VInt 2; VInt 3];
          VList [VInt 2; VInt 3; VInt 4]] len_score
    = Ok (VList [VInt 1]) /\
  (forall fn, argmax [] fn = Raise IndexError).
Proof.
  do 4 (split; [reflexivity|]). exact argmax_empty.
Qed.

(** * Further properties of the two modules *)

(** ** [argmax]: what the loop returns *)

(** The loop returns the element it started with or one it met. *)
Lemma argmax_loop_in (fn : value -> result value) (seq : list value) :
  forall best best_score r,
    argmax_loop fn seq best best_score = Ok r -> r = best \/ In r seq.
Proof.
  induction seq as [|i rest IH]; intros best best_score r; cbn.
  - intros H; injection H as <-; now left.
  - destruct (fn i) as [n_score|e]; cbn; [|discriminate].
    destruct (py_gt n_score best_score) as [[|]|e]; cbn; [| |discriminate];
      intros H; apply IH in H as [->|H]; auto.
Qed.

(** The loop cannot end well unless every element has been scored. *)
Lemma argmax_loop_scores_all (fn : value -> result value) (seq : list value) :
  forall best best_score r,
    argmax_loop fn seq best best_score = Ok r ->
    forall x, In x seq -> exists v, fn x = Ok v.
Proof.
  induction seq as [|i rest IH]; intros best best_score r; cbn.
  - intros _ x [].
  - destruct (fn i) as [n_score|e] eqn:Hi; cbn; [|discriminate].
    destruct (py_gt n_score best_score) as [[|]|e]; cbn; [| |discriminate];
      intros H x [<-|Hx]; eauto.
Qed.

(** X1. Whenever [argmax] returns, what it returns is an element of the
    sequence, and the scoring function has returned on the whole sequence
    and on each of its elements: no element is skipped. *)
Theorem argmax_returns_element
  (seq : list value) (fn : value -> result value) (r : value) :
  argmax seq fn = Ok r ->
  In r seq /\
  (exists v, fn (VList seq) = Ok v) /\
  (forall x, In x seq -> exists v, fn x = Ok v).
Proof.
  unfold argmax. destruct seq as [|x rest]; [discriminate|]. cbn [bind].
  destruct (fn (VList (x :: rest))) as [best_score|e] eqn:Hseq; cbn [bind];
    [|discriminate].
  intros Hloop. repeat split.
  - apply argmax_loop_in in Hloop as [->|Hin]; [now left | assumption].
  - now exists best_score.
  - now apply (argmax_loop_scores_all _ _ _ _ _ Hloop).
Qed.

Lemma argmax_returns_element_witness :
  argmax [VList [VInt 1]; VList [VInt 2; VInt 3];
          VList [VInt 7; VInt 3; VInt 4; VInt 5]] len_score
  = Ok (VList [VInt 7; VInt 3; VInt 4; VInt 5]) /\
  In (VList [VInt 7; VInt 3; VInt 4; VInt 5])
     [VList [VInt 1]; VList [VInt 2; VInt 3];
      VList [VInt 7; VInt 3; VInt 4; VInt 5]].
Proof.
  split; [reflexivity|].
  exact (proj1 (argmax_returns_element
                  [VList [VInt 1]; VList [VInt 2; VInt 3];
                   VList [VInt 7; VInt 3; VInt 4; VInt 5]]
                  len_score (VList [VInt 7; VInt 3; VInt 4; VInt 5]) eq_refl)).
Defined.

(** On integer scores the loop ends with the element it started with when
    no score exceeds the starting one, and otherwise with the first element
    of the largest score. *)
Lemma argmax_loop_integer_scores
  (fn : value -> result value) (score_of : value -> Z) (seq : list value) :
  (forall x, In x seq -> fn x = Ok (VInt (score_of x))) ->
  forall best b,
  exists r,
    argmax_loop fn seq best (VInt b) = Ok r /\
    ((r = best /\ forall x, In x seq -> score_of x <= b) \/
     (exists before after,
        seq = (before ++ r :: after)%list /\
        b < score_of r /\
        (forall x, In x before -> score_of x < score_of r) /\
        (forall x, In x after -> score_of x <= score_of r))).
Proof.
  induction seq as [|i rest IH]; intros Hscores best b.
  - exists best; split; [reflexivity|]. left; split; [reflexivity | intros x []].
  - assert (Hrest : forall x, In x rest -> fn x = Ok (VInt (score_of x)))
      by (intros x Hx; apply Hscores; now right).
    cbn [argmax_loop]. rewrite (Hscores i (or_introl eq_refl)). cbn.
    destruct (Z.gtb_spec (score_of i) b) as [Hgt|Hle].
    + destruct (IH Hrest i (score_of i)) as (r & Hr & Hcase).
      exists r; split; [exact Hr|]. right.
      destruct Hcase as [[-> Hall]|(before & after & -> & Hlt & Hbefore & Hafter)].
      * exists [], rest. repeat split; [lia | intros x [] | exact Hall].
      * exists (i :: before), after. repeat split; [lia | | exact Hafter].
        intros x [<-|Hx]; [lia | now apply Hbefore].
    + destruct (IH Hrest best b) as (r & Hr & Hcase).
      exists r; split; [exact Hr|].
      destruct Hcase as [[-> Hall]|(before & after & -> & Hlt & Hbefore & Hafter)].
      * left; split; [reflexivity|]. intros x [<-|Hx]; [lia | now apply Hall].
      * right. exists (i :: before), after. repeat split; [lia | | exact Hafter].
        intros x [<-|Hx]; [lia | now apply Hbefore].
Qed.

(** X2. With integer scores, when some element scores more than the whole
    sequence does, [argmax] returns an element of the largest score, and of
    several the first one. *)
Theorem argmax_first_largest_above_sequence_score
  (seq : list value) (fn : value -> result value) (score_of : value -> Z)
  (whole : Z) :
  fn (VList seq) = Ok (VInt whole) ->
  (forall x, In x seq -> fn x = Ok (VInt (score_of x))) ->
  (exists x, In x seq /\ whole < score_of x) ->
  exists r before after,
    argmax seq fn = Ok r /\
    seq = (before ++ r :: after)%list /\
    (forall x, In x before -> score_of x < score_of r) /\
    (forall x, In x after -> score_of x <= score_of r).
Proof.
  intros Hwhole Hscores (x & Hx & Hbig).
  destruct seq as [|first rest]; [contradiction|].
  unfold argmax; cbn [bind]. rewrite Hwhole; cbn [bind].
  destruct (argmax_loop_integer_scores fn score_of (first :: rest) Hscores first whole)
    as (r & Hr & [[_ Hall]|(before & after & Hsplit & _ & Hbefore & Hafter)]).
  - specialize (Hall x Hx). lia.
  - now exists r, before, after.
Qed.

Lemma argmax_first_largest_above_sequence_score_witness :
  exists r before after,
    argmax [VList [VInt 1]; VList [VInt 7; VInt 3; VInt 4; VInt 5; VInt 6];
            VList [VInt 2; VInt 3]; VList [VInt 0; VInt 0; VInt 0; VInt 0]]
      len_score = Ok r /\
    [VList [VInt 1]; VList [VInt 7; VInt 3; VInt 4; VInt 5; VInt 6];
     VList [VInt 2; VInt 3]; VList [VInt 0; VInt 0; VInt 0; VInt 0]]
    = (before ++ r :: after)%list /\
    (forall x, In x before -> length_of x < length_of r) /\
    (forall x, In x after -> length_of x <= length_of r).
Proof.
  apply (argmax_first_largest_above_sequence_score _ len_score length_of 4).
  - reflexivity.
  - intros x [<-|[<-|[<-|[<-|[]]]]]; reflexivity.
  - exists (VList [VInt 7; VInt 3; VInt 4; VInt 5; VInt 6]). split; [cbn; tauto|].
    reflexivity.
Defined.

(** X3. With integer scores, when no element scores more than the whole
    sequence does, [argmax] returns the first element, whatever the scores
    of the others. *)
Theorem argmax_first_element_below_sequence_score
  (first : value) (rest : list value) (fn : value -> result value)
  (score_of : value -> Z) (whole : Z) :
  fn (VList (first :: rest)) = Ok (VInt whole) ->
  (forall x, In x (first :: rest) -> fn x = Ok (VInt (score_of x))) ->
  (forall x, In x (first :: rest) -> score_of x <= whole) ->
  argmax (first :: rest) fn = Ok first.
Proof.
  intros Hwhole Hscores Hsmall.
  unfold argmax; cbn [bind]. rewrite Hwhole; cbn [bind].
  destruct (argmax_loop_integer_scores fn score_of (first :: rest) Hscores first whole)
    as (r & Hr & [[-> _]|(before & after & Hsplit & Hlt & _ & _)]).
  - exact Hr.
  - assert (Hin : In r (first :: rest))
      by (rewrite Hsplit; apply in_or_app; right; now left).
    specialize (Hsmall r Hin). lia.
Qed.

Lemma argmax_first_element_below_sequence_score_witness :
  argmax [VList [VInt 1]; VList [VInt 2; VInt 3];
          VList [VInt 2; VInt 3; VInt 4]] len_score
  = Ok (VList [VInt 1]) /\
  length_of (VList [VInt 1]) < length_of (VList [VInt 2; VInt 3; VInt 4]).
Proof.
  split; [|reflexivity].
  apply (argmax_first_element_below_sequence_score _ _ len_score length_of 3).
  - reflexivity.
  - intros x [<-|[<-|[<-|[]]]]; reflexivity.
  - intros x [<-|[<-|[<-|[]]]]; cbn; lia.
Defined.



(** ** [action_mobility]: dead ends and the order of the moves *)

Lemma quotient_zero (b : Z) : 0 < b -> quotient 0 b = 0%float.
Proof. destruct b as [|p|p]; [lia | reflexivity | lia]. Qed.

Lemma fold_left_max_permutation (l l' : list Z) :
  Permutation l l' -> forall a, fold_left Z.max l a = fold_left Z.max l' a.
Proof.
  induction 1 as [|x l l' _ IH|x y l|l l' l'' _ IH1 _ IH2]; intros a; cbn.
  - reflexivity.
  - apply IH.
  - f_equal. lia.
  - now rewrite IH1.
Qed.

(** X5. When the player to move has a legal move and every legal move
    leaves them without a follow-up move, [action_mobility] returns [0.0]
    and [action_focus] returns [1.0]. *)
Theorem action_mobility_dead_end
  {State Player Move Cell : Type} (B : Board State Player Move Cell)
  (state : State) :
  get_legal_moves state None <> [] ->
  (forall m, In m (get_legal_moves state None) -> follow_up_moves state m = 0) ->
  action_mobility state = Ok 0%float /\
  action_focus state = Ok 1%float.
Proof.
  intros Hne Hdead.
  assert (Hzero : action_mobility state = Ok 0%float).
  { rewrite (action_mobility_some_moves state Hne).
    destruct (best_moves_ahead_spec state _ Hne) as [(m & Hm & Hbest) _].
    rewrite <- Hbest, (Hdead m Hm). f_equal. apply quotient_zero.
    pose proof (len_zero_iff (get_legal_moves state None)) as Hlen.
    unfold len in *. destruct (get_legal_moves state None); [contradiction|].
    cbn [List.length]. lia. }
  split; [exact Hzero|].
  unfold action_focus. rewrite Hzero. reflexivity.
Qed.

Lemma action_mobility_dead_end_witness :
  get_legal_moves TableBoard.midgame None <> [] /\
  action_mobility TableBoard.midgame = Ok 0%float /\
  action_focus TableBoard.midgame = Ok 1%float.
Proof.
  split; [discriminate|].
  apply (action_mobility_dead_end _ TableBoard.midgame).
  - discriminate.
  - intros m [<-|[<-|[<-|[<-|[]]]]]; reflexivity.
Defined.

(** X9. [action_mobility] does not depend on the order in which the board
    lists the legal moves: two states whose legal moves leave the same
    follow-up counts, in any order, get the same result (the same float, or
    the same [ZeroDivisionError] when there is no move). *)
Theorem action_mobility_order_independent
  {State Player Move Cell : Type} (B : Board State Player Move Cell)
  (s1 s2 : State) :
  Permutation (map (follow_up_moves s1) (get_legal_moves s1 None))
              (map (follow_up_moves s2) (get_legal_moves s2 None)) ->
  action_mobility s1 = action_mobility s2.
Proof.
  intros Hperm. unfold action_mobility. rewrite !mobility_loop.
  rewrite (fold_left_max_permutation _ _ Hperm).
  apply Permutation_length in Hperm. rewrite !length_map in Hperm.
  unfold len. now rewrite Hperm.
Qed.

Lemma action_mobility_order_independent_witness :
  map (follow_up_moves TableBoard.three_by_three)
      (get_legal_moves TableBoard.three_by_three None) = [2; 2; 3] /\
  map (follow_up_moves three_by_three_reordered)
      (get_legal_moves three_by_three_reordered None) = [3; 2; 2] /\
  action_mobility TableBoard.three_by_three
  = action_mobility three_by_three_reordered.
Proof.
  split; [reflexivity|]. split; [reflexivity|].
  apply action_mobility_order_independent.
  exact (perm_trans (perm_skip 2 (perm_swap 3 2 [])) (perm_swap 3 2 [2])).
Defined.

(** ** [score]: the two mobility methods side by side *)

(** X8. On a state that marks the player neither as a loser nor as a
    winner, [score] with ["action_focus"] is the complement of [score] with
    ["action_mobility"]: when the latter returns [m] the former returns
    [1.0 - m], and when the latter raises the former raises the same
    exception. *)
Theorem score_focus_complements_mobility
  {State Player Move Cell : Type} (B : Board State Player Move Cell)
  (state : State) (player : Player) :
  is_loser state player = false ->
  is_winner state player = false ->
  (forall m, score state player "action_mobility" = Ok m ->
             score state player "action_focus" = Ok (1 - m)%float) /\
  (forall e, score state player "action_mobility" = Raise e ->
             score state player "action_focus" = Raise e).
Proof.
  intros Hl Hw. unfold score. rewrite !score_with_open by assumption.
  cbn. unfold action_focus.
  split; [intros m Hm | intros e He]; now rewrite ?Hm, ?He.
Qed.

Lemma score_focus_complements_mobility_witness :
  score TableBoard.opening TableBoard.Player2 "action_mobility" = Ok 5%float /\
  score TableBoard.opening TableBoard.Player2 "action_focus" = Ok (-4)%float.
Proof.
  split; [reflexivity|].
  exact (proj1 (score_focus_complements_mobility _ TableBoard.opening
                  TableBoard.Player2 eq_refl eq_refl) 5%float eq_refl).
Defined.

(** ** [the_super_duper_hugo_heuristic]: what it reads *)

Lemma opponent_moves_own
  {State Player Move Cell : Type} (B : Board State Player Move Cell)
  (laws : BoardLaws B) (state : State) :
  opponent_moves state = player_moves state.
Proof.
  unfold opponent_moves, player_moves.
  now rewrite opponent_of_inactive, <- legal_moves_default.
Qed.

(** X6. On a two-player board the value of
    [the_super_duper_hugo_heuristic] is decided by the weight, the number
    of legal moves of the player to move and the number of filled cells:
    two states that agree on these get the same value, whatever the moves
    of the other player. *)
Theorem weighted_differential_ignores_opponent
  {State Player Move Cell : Type} (B : Board State Player Move Cell)
  (laws : BoardLaws B) (s1 s2 : State) (weight : num) :
  player_moves s1 = player_moves s2 ->
  filled_spaces s1 = filled_spaces s2 ->
  the_super_duper_hugo_heuristic s1 weight
  = the_super_duper_hugo_heuristic s2 weight.
Proof.
  intros Hpm Hfs. unfold the_super_duper_hugo_heuristic.
  now rewrite !(opponent_moves_own _ laws), Hpm, Hfs.
Qed.

Lemma weighted_differential_ignores_opponent_witness :
  len (get_legal_moves TableBoard.midgame
         (Some (inactive_player TableBoard.midgame))) = 2 /\
  len (get_legal_moves cornered_midgame
         (Some (inactive_player cornered_midgame))) = 0 /\
  the_super_duper_hugo_heuristic TableBoard.midgame default_weight
  = the_super_duper_hugo_heuristic cornered_midgame default_weight.
Proof.
  split; [reflexivity|]. split; [reflexivity|].
  exact (weighted_differential_ignores_opponent _ table_board_laws
           TableBoard.midgame cornered_midgame default_weight eq_refl eq_refl).
Defined.

(** X7. On a two-player board and with an integer weight,
    [the_super_duper_hugo_heuristic] returns [0.0] as soon as the weight is
    1, or the player to move has no legal move, or no cell is filled. *)
Theorem weighted_differential_zero
  {State Player Move Cell : Type} (B : Board State Player Move Cell)
  (laws : BoardLaws B) (state : State) (k : Z) :
  k = 1 \/ player_moves state = 0 \/ filled_spaces state = 0 ->
  the_super_duper_hugo_heuristic state (Int k) = Ok 0%float.
Proof.
  intros Hzero. unfold the_super_duper_hugo_heuristic.
  rewrite (opponent_moves_own _ laws). unfold weighted_differential; cbn.
  replace ((player_moves state - k * player_moves state) * filled_spaces state)
    with 0; [reflexivity|].
  destruct Hzero as [->|[->| ->]]; ring.
Qed.

Lemma weighted_differential_zero_witness :
  player_moves TableBoard.midgame = 4 /\
  filled_spaces TableBoard.midgame = 8 /\
  the_super_duper_hugo_heuristic TableBoard.midgame (Int 1) = Ok 0%float /\
  the_super_duper_hugo_heuristic TableBoard.stuck (Int 3) = Ok 0%float.
Proof.
  split; [reflexivity|]. split; [reflexivity|]. split.
  - exact (weighted_differential_zero _ table_board_laws TableBoard.midgame 1
             (or_introl eq_refl)).
  - exact (weighted_differential_zero _ table_board_laws TableBoard.stuck 3
             (or_intror (or_introl eq_refl))).
Defined.

(** ** [score]: every way it can fail *)

Lemma action_mobility_raises
  {State Player Move Cell : Type} (B : Board State Player Move Cell)
  (state : State) (e : exn) :
  action_mobility state = Raise e ->
  e = ZeroDivisionError /\ get_legal_moves state None = [].
Proof.
  unfold action_mobility, int_truediv.
  destruct (Z.eqb_spec (len (get_legal_moves state None)) 0) as [Hz|_];
    [|discriminate].
  intros H; injection H as <-. split; [reflexivity | now apply len_zero_iff].
Qed.

Lemma weighted_differential_overflow (pm om fs : Z) (e : exn) :
  weighted_differential default_weight pm om fs = Raise e ->
  e = OverflowError /\
  exists count,
    (count = om \/ count = pm \/ count = fs) /\
    float_of_int count = Raise OverflowError /\
    2 ^ 1023 <= Z.abs count.
Proof.
  unfold weighted_differential, default_weight. cbn [mul to_float bind].
  destruct (float_of_int_outcome om) as [[Hr Hbig]|(r & Hr & _)];
    rewrite Hr; cbn [bind sub to_float].
  { intros H; injection H as <-. split; [reflexivity|]. exists om. auto. }
  destruct (float_of_int_outcome pm) as [[Hr' Hbig]|(r' & Hr' & _)];
    rewrite Hr'; cbn [bind mul to_float].
  { intros H; injection H as <-. split; [reflexivity|]. exists pm. auto. }
  destruct (float_of_int_outcome fs) as [[Hr'' Hbig]|(r'' & Hr'' & _)];
    rewrite Hr''; cbn [bind to_float].
  { intros H; injection H as <-. split; [reflexivity|]. exists fs. auto. }
  discriminate.
Qed.

(** X10. [score] can fail in three ways only, all on a state that marks
    the player neither as a loser nor as a winner: [KeyError] with the
    method as its key, when the method is not registered;
    [ZeroDivisionError], from the two mobility methods, when the player to
    move has no legal move; [OverflowError], from
    ["the_super_duper_hugo_heuristic"], when one of the three counts it
    reads (the two numbers of moves, the filled cells) is too large for
    [float()]: at least [2^1023] in absolute value. *)
Theorem score_failure_modes
  {State Player Move Cell : Type} (B : Board State Player Move Cell)
  (state : State) (player : Player) (method : string) (e : exn) :
  score state player method = Raise e ->
  is_loser state player = false /\
  is_winner state player = false /\
  ((e = KeyError method /\ ~ In method registered) \/
   (e = ZeroDivisionError /\ get_legal_moves state None = [] /\
    (method = "action_mobility" \/ method = "action_focus")) \/
   (e = OverflowError /\ method = "the_super_duper_hugo_heuristic" /\
    exists count,
      (count = opponent_moves state \/ count = player_moves state \/
       count = filled_spaces state) /\
      float_of_int count = Raise OverflowError /\
      2 ^ 1023 <= Z.abs count)).
Proof.
  unfold score, score_with.
  destruct (is_loser state player); [discriminate|].
  destruct (is_winner state player); [discriminate|].
  intros Hraise. split; [reflexivity|]. split; [reflexivity|].
  revert Hraise. unfold methods; cbn [getitem].
  destruct (String.eqb_spec "action_mobility" method) as [<-|H1]; cbn [bind].
  { intros H; apply action_mobility_raises in H as [-> Hnone]. right; left; auto. }
  destruct (String.eqb_spec "action_focus" method) as [<-|H2]; cbn [bind].
  { unfold action_focus.
    destruct (action_mobility state) as [m|e'] eqn:Hm; cbn [bind]; [discriminate|].
    intros H; injection H as <-.
    apply action_mobility_raises in Hm as [-> Hnone]. right; left; auto. }
  destruct (String.eqb_spec "the_super_duper_hugo_heuristic" method) as [<-|H3];
    cbn [bind].
  { unfold the_super_duper_hugo_heuristic.
    intros H; apply weighted_differential_overflow in H as [-> Hcount].
    right; right; auto. }
  intros H; injection H as <-. left; split; [reflexivity|].
  cbn. intros [H|[H|[H|[]]]]; congruence.
Qed.

Lemma score_failure_modes_witness :
  score TableBoard.stuck TableBoard.Player1 "action_focus"
    = Raise ZeroDivisionError /\
  get_legal_moves TableBoard.stuck None = [] /\
  is_loser TableBoard.stuck TableBoard.Player1 = false.
Proof.
  pose proof (score_failure_modes _ TableBoard.stuck TableBoard.Player1
                "action_focus" ZeroDivisionError eq_refl)
    as (Hl & _ & [[Hk _]|[(_ & Hnone & _)|[Ho _]]]).
  - discriminate Hk.
  - exact (conj eq_refl (conj Hnone Hl)).
  - discriminate Ho.
Defined.
